(** * The nanokernel stack object of [kernel/nanokernel/core/nano_stack.c]

    A shallow embedding of the LIFO stack primitive: the stack object, the
    backing storage it borrows, and the calls it makes into the interrupt
    masking primitives and the scheduler.  Every routine of the C file is
    written as a program of a small state-and-trace monad, one primitive
    action per C-level access, so that both the final state and the order
    of the accesses can be reasoned about. *)

From stdpp Require Import base option list gmap.
From Stdlib Require Import ZArith Lia.

Local Open Scope Z_scope.

(** ** Data model *)

(** A [tCCS *] that is not NULL: the address of a context control
    structure.  The stack never looks inside it. *)
Abbreviation tCCS := positive (only parsing).

(** The interrupt key returned by [irq_lock_inline]: whether interrupts
    were already masked when the lock was taken. *)
Abbreviation imask_t := bool (only parsing).

(** [struct nano_stack].  [next] and [base] are [uint32_t *]; they are
    modelled as slot numbers (the byte address divided by the slot width),
    so that [next++] is [next + 1].  [proc] is the waiting fiber, [None]
    standing for the NULL pointer. *)
Record nano_stack : Type := mk_nano_stack {
  next : Z;
  base : Z;
  proc : option tCCS
}.

(** The part of the machine the routines can see.  The stack object is kept
    apart from the slot memory [mem]: the structure itself is assumed not
    to overlap the storage the pointers range over. *)
Record kernel : Type := mk_kernel {
  chan : nano_stack;           (* the object [chan] points to *)
  mem : gmap Z Z;              (* uint32_t slots, by slot number *)
  current : tCCS;              (* _NanoKernel.current *)
  fiber : gset tCCS;           (* _NanoKernel.fiber, the ready fibers *)
  rtn : gmap tCCS Z;           (* pending return value of each context *)
  irq_locked : bool            (* interrupts are masked *)
}.

Inductive field : Type := f_next | f_base | f_proc.

(** What a routine does, in program order: accesses to the stack object
    and to slot memory, and calls to the external primitives. *)
Inductive event : Type :=
| ev_irq_lock
| ev_irq_unlock (imask : imask_t)
| ev_load (f : field)
| ev_store_next (a : Z)
| ev_store_base (a : Z)
| ev_store_proc (c : option tCCS)
| ev_load_current
| ev_mem_load (a : Z)
| ev_mem_store (a : Z) (v : Z)
| ev_fiberRtnValueSet (c : tCCS) (v : Z)
| ev_insert_ccs (c : tCCS)
| ev_Swap (imask : imask_t)
| ev_atomic_idle (imask : imask_t).

(** How a call ends: it returns to its caller, or the calling context is
    switched out inside [_Swap]; [resume] is the rest of the routine, run
    on the value [_Swap] returns once the context is switched back in. *)
Inductive completion (A : Type) : Type :=
| Returned (a : A)
| Suspended (resume : Z -> A).
Arguments Returned {A} a.
Arguments Suspended {A} resume.

Definition uint32_max : Z := 2 ^ 32.
Definition is_uint32 (v : Z) : Prop := 0 <= v < uint32_max.
(** The conversion [(uint32_t) x]. *)
Definition to_uint32 (v : Z) : Z := v mod uint32_max.

(** ** The monad: state passing plus a trace of events *)

Definition M (A : Type) : Type := kernel -> A * kernel * list event.

Definition ret {A : Type} (a : A) : M A := fun k => (a, k, []).

Definition bind {A B : Type} (m : M A) (f : A -> M B) : M B :=
  fun k =>
    let '(a, k1, t1) := m k in
    let '(b, k2, t2) := f a k1 in
    (b, k2, t1 ++ t2).

#[global] Instance M_ret : MRet M := @ret.
#[global] Instance M_bind : MBind M := fun A B f m => bind m f.

Definition result {A : Type} (m : M A) (k : kernel) : A := (m k).1.1.
Definition exec {A : Type} (m : M A) (k : kernel) : kernel := (m k).1.2.
Definition trace {A : Type} (m : M A) (k : kernel) : list event := (m k).2.

(** ** Primitive actions *)

Definition set_chan (c : nano_stack) (k : kernel) : kernel :=
  mk_kernel c (mem k) (current k) (fiber k) (rtn k) (irq_locked k).
Definition set_mem (m : gmap Z Z) (k : kernel) : kernel :=
  mk_kernel (chan k) m (current k) (fiber k) (rtn k) (irq_locked k).
Definition set_fiber (f : gset tCCS) (k : kernel) : kernel :=
  mk_kernel (chan k) (mem k) (current k) f (rtn k) (irq_locked k).
Definition set_rtn (r : gmap tCCS Z) (k : kernel) : kernel :=
  mk_kernel (chan k) (mem k) (current k) (fiber k) r (irq_locked k).
Definition set_irq (b : bool) (k : kernel) : kernel :=
  mk_kernel (chan k) (mem k) (current k) (fiber k) (rtn k) b.

(** [*a] for a slot never written reads as 0. *)
Definition slot (m : gmap Z Z) (a : Z) : Z := default 0 (m !! a).

Definition load_next : M Z := fun k => (next (chan k), k, [ev_load f_next]).
Definition load_base : M Z := fun k => (base (chan k), k, [ev_load f_base]).
Definition load_proc : M (option tCCS) :=
  fun k => (proc (chan k), k, [ev_load f_proc]).
Definition load_current : M tCCS :=
  fun k => (current k, k, [ev_load_current]).

Definition store_next (a : Z) : M unit := fun k =>
  (tt, set_chan (mk_nano_stack a (base (chan k)) (proc (chan k))) k,
   [ev_store_next a]).
Definition store_base (a : Z) : M unit := fun k =>
  (tt, set_chan (mk_nano_stack (next (chan k)) a (proc (chan k))) k,
   [ev_store_base a]).
Definition store_proc (c : option tCCS) : M unit := fun k =>
  (tt, set_chan (mk_nano_stack (next (chan k)) (base (chan k)) c) k,
   [ev_store_proc c]).

Definition mem_load (a : Z) : M Z :=
  fun k => (slot (mem k) a, k, [ev_mem_load a]).
Definition mem_store (a v : Z) : M unit :=
  fun k => (tt, set_mem (<[a := v]> (mem k)) k, [ev_mem_store a v]).

(** ** The external primitives *)

(** Modelled from the spec: the interrupt masking primitive of [nanok.h],
    which is not part of this file.  [mask() -> token] masks interrupts and
    hands back the previous state, to be given to [unmask(token)]. *)
Definition irq_lock_inline : M imask_t :=
  fun k => (irq_locked k, set_irq true k, [ev_irq_lock]).

(** Modelled from the spec: [unmask(token)] restores the state the token
    was taken in. *)
Definition irq_unlock_inline (imask : imask_t) : M unit :=
  fun k => (tt, set_irq imask k, [ev_irq_unlock imask]).

(** Modelled from the spec: the scheduler's
    [set_pending_return_value(context, value)], which is not part of this
    file. *)
Definition fiberRtnValueSet (c : tCCS) (v : Z) : M unit :=
  fun k => (tt, set_rtn (<[c := v]> (rtn k)) k, [ev_fiberRtnValueSet c v]).

(** Modelled from the spec: the scheduler's [enqueue_ready(context)] on the
    ready set [_NanoKernel.fiber], which is not part of this file. *)
Definition _insert_ccs (c : tCCS) : M unit :=
  fun k => (tt, set_fiber ({[c]} ∪ fiber k) k, [ev_insert_ccs c]).

(** Modelled from the spec: the scheduler's [suspend_current_and_switch]
    and [yield_to_scheduler], which are not part of this file.  The calling
    context is switched out, the interrupt mask being released as part of
    the transition; the caller goes on with [resume] only when it is
    switched back in. *)
Definition _Swap {A : Type} (imask : imask_t) (resume : Z -> A)
  : M (completion A) :=
  fun k => (Suspended resume, set_irq imask k, [ev_Swap imask]).

(** Modelled from the spec: the value [_Swap] returns to context [c] when
    it is resumed in state [k], its pending return value. *)
Definition swap_return (k : kernel) (c : tCCS) : Z := default 0 (rtn k !! c).

(** Modelled from the spec: [atomic_idle(token)], which is not part of this
    file: interrupts are restored and the processor waits for the next
    interrupt in one step. *)
Definition nano_cpu_atomic_idle (imask : imask_t) : M unit :=
  fun k => (tt, set_irq imask k, [ev_atomic_idle imask]).

(** ** The routines of [nano_stack.c] *)

Definition nano_stack_init (data : Z) : M unit :=
  store_base data ;;
  store_next data ;;
  store_proc None.

Definition _stack_push (data : Z) : M unit :=
  imask ← irq_lock_inline;
  ccs ← load_proc;
  match ccs with
  | Some c =>
      store_proc None ;;
      fiberRtnValueSet c data ;;
      _insert_ccs c
  | None =>
      nx ← load_next;
      mem_store nx data ;;
      nx ← load_next;
      store_next (nx + 1)
  end ;;
  irq_unlock_inline imask.

Definition nano_task_stack_push (data : Z) : M (completion unit) :=
  imask ← irq_lock_inline;
  ccs ← load_proc;
  match ccs with
  | Some c =>
      store_proc None ;;
      fiberRtnValueSet c data ;;
      _insert_ccs c ;;
      (* swap into the newly ready fiber *)
      _Swap imask (fun _ => tt)
  | None =>
      nx ← load_next;
      mem_store nx data ;;
      nx ← load_next;
      store_next (nx + 1) ;;
      irq_unlock_inline imask ;;
      ret (Returned tt)
  end.

Definition _stack_pop (pData : Z) : M Z :=
  imask ← irq_lock_inline;
  nx ← load_next;
  bs ← load_base;
  rv ← (if nx >? bs then
           nx ← load_next;
           store_next (nx - 1) ;;
           nx ← load_next;
           v ← mem_load nx;
           mem_store pData v ;;
           ret 1
         else ret 0);
  irq_unlock_inline imask ;;
  ret rv.

Definition nano_fiber_stack_pop_wait : M (completion Z) :=
  imask ← irq_lock_inline;
  nx ← load_next;
  bs ← load_base;
  if nx =? bs then
    cur ← load_current;
    store_proc (Some cur) ;;
    _Swap imask to_uint32
  else
    nx ← load_next;
    store_next (nx - 1) ;;
    nx ← load_next;
    data ← mem_load nx;
    irq_unlock_inline imask ;;
    ret (Returned data).

(** The polling loop.  [nano_cpu_atomic_idle] comes back after the next
    interrupt; [irqs] lists the interrupt handlers that run, one per idle
    phase.  [None] stands for a processor that idles for good, no interrupt
    being left to wake it. *)
Fixpoint nano_task_stack_pop_wait (irqs : list (M unit)) : M (option Z) :=
  imask ← irq_lock_inline;
  nx ← load_next;
  bs ← load_base;
  if nx >? bs then
    nx ← load_next;
    store_next (nx - 1) ;;
    nx ← load_next;
    data ← mem_load nx;
    irq_unlock_inline imask ;;
    ret (Some data)
  else
    nano_cpu_atomic_idle imask ;;
    match irqs with
    | [] => ret None
    | isr :: rest => isr ;; nano_task_stack_pop_wait rest
    end.

(** ** Reading traces *)

(** The event reads or writes the buffer: [base], [next] or a slot. *)
Definition touches_buffer (e : event) : bool :=
  match e with
  | ev_load f_next | ev_load f_base
  | ev_store_next _ | ev_store_base _
  | ev_mem_load _ | ev_mem_store _ _ => true
  | _ => false
  end.

(** The event writes the waiting-context field. *)
Definition writes_proc (e : event) : bool :=
  match e with ev_store_proc _ => true | _ => false end.

(** The event writes a slot of memory. *)
Definition writes_mem (e : event) : bool :=
  match e with ev_mem_store _ _ => true | _ => false end.

(** The event gives the processor to the scheduler. *)
Definition yields (e : event) : bool :=
  match e with ev_Swap _ => true | _ => false end.

(** The event opens or closes a critical section. *)
Definition mask_op (e : event) : bool :=
  match e with
  | ev_irq_lock | ev_irq_unlock _ | ev_Swap _ | ev_atomic_idle _ => true
  | _ => false
  end.

(** The event closes a critical section. *)
Definition releases (e : event) : bool :=
  match e with
  | ev_irq_unlock _ | ev_Swap _ | ev_atomic_idle _ => true
  | _ => false
  end.

(** The trace is one critical section: it opens with the lock, closes with
    a release, and the mask is not touched in between. *)
Definition one_critical_section (t : list event) : bool :=
  match t with
  | ev_irq_lock :: r =>
      match reverse r with
      | e :: body => releases e && forallb (fun e' => negb (mask_op e')) body
      | [] => false
      end
  | _ => false
  end.

Definition never (p : event -> bool) (t : list event) : bool :=
  forallb (fun e => negb (p e)) t.

(** ** Sequences of calls *)

(** The stack is empty: [next == base]. *)
Definition empty (k : kernel) : Prop := next (chan k) = base (chan k).

Inductive op : Type :=
| op_push (data : Z)          (* nano_isr_stack_push, nano_fiber_stack_push *)
| op_task_push (data : Z)     (* nano_task_stack_push *)
| op_pop (pData : Z).         (* nano_{isr,fiber,task}_stack_pop *)

(** What the caller sees of a call: a pop hands back what it finds in its
    output slot when the routine returns non-zero. *)
Inductive answer : Type :=
| pushed
| popped (v : Z)
| not_found.

Definition call (o : op) (k : kernel) : answer * kernel :=
  match o with
  | op_push d => (pushed, exec (_stack_push d) k)
  | op_task_push d => (pushed, exec (nano_task_stack_push d) k)
  | op_pop p =>
      let k' := exec (_stack_pop p) k in
      (if result (_stack_pop p) k =? 0 then not_found
       else popped (slot (mem k') p), k')
  end.

Fixpoint calls (os : list op) (k : kernel) : list answer * kernel :=
  match os with
  | [] => ([], k)
  | o :: os' =>
      let '(a, k1) := call o k in
      let '(l, k2) := calls os' k1 in
      (a :: l, k2)
  end.

(** The reference LIFO the spec speaks of: a list, newest value first. *)
Definition lifo_call (o : op) (s : list Z) : answer * list Z :=
  match o with
  | op_push d | op_task_push d => (pushed, d :: s)
  | op_pop _ =>
      match s with
      | [] => (not_found, [])
      | v :: s' => (popped v, s')
      end
  end.

Fixpoint lifo_calls (os : list op) (s : list Z) : list answer * list Z :=
  match os with
  | [] => ([], s)
  | o :: os' =>
      let '(a, s1) := lifo_call o s in
      let '(l, s2) := lifo_calls os' s1 in
      (a :: l, s2)
  end.

(** The output slot of each pop is not one of the slots still occupied
    after that pop; [d] is the number of values buffered so far.  The
    output slot is the caller's own word, and a caller that aims it into
    the live part of the buffer overwrites a buffered value. *)
Fixpoint out_slots_free (b : Z) (d : nat) (os : list op) : Prop :=
  match os with
  | [] => True
  | op_push _ :: os' | op_task_push _ :: os' => out_slots_free b (S d) os'
  | op_pop p :: os' =>
      match d with
      | O => out_slots_free b O os'
      | S d' => (p < b ∨ b + Z.of_nat d' <= p) ∧ out_slots_free b d' os'
      end
  end.

(** The buffered values, newest first: the [d] slots from [b] upwards. *)
Fixpoint contents (m : gmap Z Z) (b : Z) (d : nat) : list Z :=
  match d with
  | O => []
  | S d' => slot m (b + Z.of_nat d') :: contents m b d'
  end.

(** The buffer of [k] holds [d] values and nobody waits on it. *)
Definition buffered (k : kernel) (d : nat) : Prop :=
  proc (chan k) = None ∧ next (chan k) = base (chan k) + Z.of_nat d.

(** ** Reachable states *)

(** What an interrupt handler may do to the stack. *)
Inductive isr_op : Type :=
| isr_push (data : Z)
| isr_pop (pData : Z).

Definition isr_run (o : isr_op) : M unit :=
  match o with
  | isr_push d => _stack_push d
  | isr_pop p => _stack_pop p ;; mret tt
  end.

(** One move of the system: a call of one of the routines, or any activity
    of the rest of the kernel (a context switch, a write to memory) that
    leaves the stack object alone. *)
Inductive step : kernel -> kernel -> Prop :=
| step_init data k : step k (exec (nano_stack_init data) k)
| step_push data k : step k (exec (_stack_push data) k)
| step_task_push data k : step k (exec (nano_task_stack_push data) k)
| step_pop pData k : step k (exec (_stack_pop pData) k)
| step_fiber_pop_wait k : step k (exec nano_fiber_stack_pop_wait k)
| step_task_pop_wait irqs k :
    step k (exec (nano_task_stack_pop_wait (isr_run <$> irqs)) k)
| step_env k k' : chan k' = chan k -> step k k'.

Inductive reachable : kernel -> Prop :=
| reach_init data k : reachable (exec (nano_stack_init data) k)
| reach_step k k' : reachable k -> step k k' -> reachable k'.

(** ** The hand-off *)

(** The event delivers a value to a context or makes a context ready. *)
Definition wakes (e : event) : bool :=
  match e with
  | ev_fiberRtnValueSet _ _ | ev_insert_ccs _ => true
  | _ => false
  end.

(** A push with trace [t] took [k1] to [k2] by handing [v] to the waiter
    [w]: the waiter field is cleared, [v] sits in the pending return value
    of [w] and of nobody else, [w] joined the ready set, once each, and
    neither the stack pointers nor any slot were read or written. *)
Definition handed_off (w : tCCS) (v : Z) (k1 k2 : kernel) (t : list event)
  : Prop :=
  proc (chan k2) = None ∧
  rtn k2 = <[w := v]> (rtn k1) ∧
  fiber k2 = {[w]} ∪ fiber k1 ∧
  filter (fun e => wakes e = true) t =
    [ev_fiberRtnValueSet w v; ev_insert_ccs w] ∧
  next (chan k2) = next (chan k1) ∧
  base (chan k2) = base (chan k1) ∧
  mem k2 = mem k1 ∧
  never touches_buffer t = true.

(** ** Sample states *)

(** A machine running context 1 with interrupts enabled, an empty memory
    and a stack object not yet initialized. *)
Definition k_boot : kernel :=
  mk_kernel (mk_nano_stack 7 3 (Some 5%positive)) ∅ 1%positive ∅ ∅ false.

(** The same with the stack initialized on the buffer at slot 100. *)
Definition k_fresh : kernel := exec (nano_stack_init 100) k_boot.

(** Fiber 1 pends on the fresh stack, then task 2 runs. *)
Definition k_pending : kernel :=
  let k := exec nano_fiber_stack_pop_wait k_fresh in
  mk_kernel (chan k) (mem k) 2%positive (fiber k) (rtn k) false.

(** The fresh stack after pushing 1, 2 and 3. *)
Definition k_three : kernel :=
  exec (_stack_push 3) (exec (_stack_push 2) (exec (_stack_push 1) k_fresh)).

(** The waiter invariant: the buffer pointers are in order, and a context
    is registered only on an empty buffer. *)
Definition waiter_inv (k : kernel) : Prop :=
  base (chan k) <= next (chan k) ∧ (is_Some (proc (chan k)) -> empty k).

(** ** Masking discipline and interrupt handlers *)

(** The trace respects the masking discipline: critical sections are opened
    by the lock only when the mask is not held, closed by a release only
    when it is, every other event (an access to the stack object or to a
    slot, a call into the scheduler) occurs while the mask is held, and the
    trace ends with the mask released.  [locked] tells whether the mask is
    held when the trace starts. *)
Fixpoint well_masked (locked : bool) (t : list event) : bool :=
  match t with
  | [] => negb locked
  | e :: r =>
      match e with
      | ev_irq_lock => negb locked && well_masked true r
      | ev_irq_unlock _ | ev_Swap _ | ev_atomic_idle _ =>
          locked && well_masked false r
      | _ => locked && well_masked locked r
      end
  end.

(** The event puts a context in the waiting-context field. *)
Definition registers (e : event) : bool :=
  match e with ev_store_proc (Some _) => true | _ => false end.


(** A state no call sequence reaches from an initialized stack: [next]
    below [base]. *)
Definition k_below : kernel :=
  mk_kernel (mk_nano_stack 3 7 None) ∅ 1%positive ∅ ∅ false.

(** [n] calls of the fiber pop-or-wait one after the other, with what each
    call does. *)
Fixpoint pop_waits (n : nat) (k : kernel) : list (completion Z) * kernel :=
  match n with
  | O => ([], k)
  | S n' =>
      let r := result nano_fiber_stack_pop_wait k in
      let '(l, k') := pop_waits n' (exec nano_fiber_stack_pop_wait k) in
      (r :: l, k')
  end.

(** * Properties *)

(** ** The routines, branch by branch *)

Lemma exec_bind {A B} (m : M A) (f : A -> M B) k :
  exec (m ≫= f) k = exec (f (result m k)) (exec m k).
Proof.
  unfold exec, result, mbind, M_bind, bind.
  destruct (m k) as [[a k1] t1]; simpl. by destruct (f a k1) as [[b k2] t2].
Qed.

Lemma nano_stack_init_eq k data :
  nano_stack_init data k =
  (tt, set_chan (mk_nano_stack data data None) k,
   [ev_store_base data; ev_store_next data; ev_store_proc None]).
Proof. by destruct k as [[nx bs pr] m cur fb rt iq]. Qed.

Lemma _stack_push_store k data :
  proc (chan k) = None ->
  _stack_push data k =
  (tt,
   set_mem (<[next (chan k) := data]> (mem k))
     (set_chan (mk_nano_stack (next (chan k) + 1) (base (chan k)) None) k),
   [ev_irq_lock; ev_load f_proc; ev_load f_next;
    ev_mem_store (next (chan k)) data; ev_load f_next;
    ev_store_next (next (chan k) + 1); ev_irq_unlock (irq_locked k)]).
Proof. destruct k as [[nx bs pr] m cur fb rt iq]; simpl. by intros ->. Qed.

Lemma _stack_push_handoff k data w :
  proc (chan k) = Some w ->
  _stack_push data k =
  (tt,
   set_fiber ({[w]} ∪ fiber k)
     (set_rtn (<[w := data]> (rtn k))
        (set_chan (mk_nano_stack (next (chan k)) (base (chan k)) None) k)),
   [ev_irq_lock; ev_load f_proc; ev_store_proc None;
    ev_fiberRtnValueSet w data; ev_insert_ccs w;
    ev_irq_unlock (irq_locked k)]).
Proof. destruct k as [[nx bs pr] m cur fb rt iq]; simpl. by intros ->. Qed.

Lemma nano_task_stack_push_store k data :
  proc (chan k) = None ->
  nano_task_stack_push data k =
  (Returned tt, exec (_stack_push data) k, trace (_stack_push data) k).
Proof. destruct k as [[nx bs pr] m cur fb rt iq]; simpl. by intros ->. Qed.

Lemma nano_task_stack_push_handoff k data w :
  proc (chan k) = Some w ->
  nano_task_stack_push data k =
  (Suspended (fun _ => tt),
   set_fiber ({[w]} ∪ fiber k)
     (set_rtn (<[w := data]> (rtn k))
        (set_chan (mk_nano_stack (next (chan k)) (base (chan k)) None) k)),
   [ev_irq_lock; ev_load f_proc; ev_store_proc None;
    ev_fiberRtnValueSet w data; ev_insert_ccs w;
    ev_Swap (irq_locked k)]).
Proof. destruct k as [[nx bs pr] m cur fb rt iq]; simpl. by intros ->. Qed.

Lemma _stack_pop_found k pData :
  next (chan k) > base (chan k) ->
  _stack_pop pData k =
  (1,
   set_mem (<[pData := slot (mem k) (next (chan k) - 1)]> (mem k))
     (set_chan
        (mk_nano_stack (next (chan k) - 1) (base (chan k)) (proc (chan k))) k),
   [ev_irq_lock; ev_load f_next; ev_load f_base; ev_load f_next;
    ev_store_next (next (chan k) - 1); ev_load f_next;
    ev_mem_load (next (chan k) - 1);
    ev_mem_store pData (slot (mem k) (next (chan k) - 1));
    ev_irq_unlock (irq_locked k)]).
Proof.
  destruct k as [[nx bs pr] m cur fb rt iq]; simpl. intros H%Z.gtb_gt.
  unfold _stack_pop, mbind, M_bind, bind; simpl. by rewrite H.
Qed.

Lemma _stack_pop_empty k pData :
  ¬ next (chan k) > base (chan k) ->
  _stack_pop pData k =
  (0, k,
   [ev_irq_lock; ev_load f_next; ev_load f_base;
    ev_irq_unlock (irq_locked k)]).
Proof.
  destruct k as [[nx bs pr] m cur fb rt iq]; simpl. intros H.
  unfold _stack_pop, mbind, M_bind, bind; simpl.
  destruct (nx >? bs) eqn:E; [by apply Z.gtb_gt in E|done].
Qed.

Lemma nano_fiber_stack_pop_wait_pend k :
  next (chan k) = base (chan k) ->
  nano_fiber_stack_pop_wait k =
  (Suspended to_uint32,
   set_chan (mk_nano_stack (next (chan k)) (base (chan k)) (Some (current k))) k,
   [ev_irq_lock; ev_load f_next; ev_load f_base; ev_load_current;
    ev_store_proc (Some (current k)); ev_Swap (irq_locked k)]).
Proof.
  destruct k as [[nx bs pr] m cur fb rt iq]; simpl. intros ->.
  unfold nano_fiber_stack_pop_wait, mbind, M_bind, bind; simpl.
  by rewrite Z.eqb_refl.
Qed.

Lemma nano_fiber_stack_pop_wait_pop k :
  next (chan k) ≠ base (chan k) ->
  nano_fiber_stack_pop_wait k =
  (Returned (slot (mem k) (next (chan k) - 1)),
   set_chan
     (mk_nano_stack (next (chan k) - 1) (base (chan k)) (proc (chan k))) k,
   [ev_irq_lock; ev_load f_next; ev_load f_base; ev_load f_next;
    ev_store_next (next (chan k) - 1); ev_load f_next;
    ev_mem_load (next (chan k) - 1); ev_irq_unlock (irq_locked k)]).
Proof.
  destruct k as [[nx bs pr] m cur fb rt iq]; simpl. intros H%Z.eqb_neq.
  unfold nano_fiber_stack_pop_wait, mbind, M_bind, bind; simpl.
  by rewrite H.
Qed.

(** ** Initialization *)

(** C8: for every stack object and every pointer [data] to backing storage,
    [nano_stack_init] sets both [next] and [base] to [data] and clears the
    waiting-context field; right afterwards the buffer is empty (a pop
    finds nothing) and no waiter is registered.  Nothing but the stack
    object changes. *)
Theorem nano_stack_init_spec (k : kernel) (data : Z) :
  let k' := exec (nano_stack_init data) k in
  next (chan k') = data ∧ base (chan k') = data ∧ proc (chan k') = None ∧
  empty k' ∧
  (∀ pData, result (_stack_pop pData) k' = 0) ∧
  k' = set_chan (mk_nano_stack data data None) k.
Proof.
  unfold exec, result, empty. rewrite nano_stack_init_eq; simpl.
  repeat split. intros p. rewrite _stack_pop_empty; simpl; [done|lia].
Qed.

(** ** Non-blocking pop *)

(** C5: for every call of [_stack_pop]: if [next > base] it decrements
    [next], copies the value at the new top into the output slot [pData]
    and returns 1; otherwise it returns 0 and the output slot (indeed the
    whole state) is as before, no slot being written. *)
Theorem _stack_pop_spec (k : kernel) (pData : Z) :
  let k' := exec (_stack_pop pData) k in
  let t := trace (_stack_pop pData) k in
  if decide (next (chan k) > base (chan k)) then
    result (_stack_pop pData) k = 1 ∧
    next (chan k') = next (chan k) - 1 ∧
    slot (mem k') pData = slot (mem k) (next (chan k') ) ∧
    mem k' = <[pData := slot (mem k) (next (chan k) - 1)]> (mem k) ∧
    base (chan k') = base (chan k) ∧ proc (chan k') = proc (chan k)
  else
    result (_stack_pop pData) k = 0 ∧
    slot (mem k') pData = slot (mem k) pData ∧
    k' = k ∧
    never writes_mem t = true.
Proof.
  unfold exec, result, trace. case_decide as H.
  - rewrite _stack_pop_found by done; simpl.
    repeat split. unfold slot at 1. by rewrite lookup_insert_eq.
  - by rewrite _stack_pop_empty.
Qed.

(** C10: a pop on an empty stack ([next == base]) leaves the stack object
    as it was, [base], [next] and the waiting-context field alike, and
    returns 0, "not found". *)
Theorem _stack_pop_empty_unchanged (k : kernel) (pData : Z) :
  empty k ->
  let k' := exec (_stack_pop pData) k in
  result (_stack_pop pData) k = 0 ∧
  base (chan k') = base (chan k) ∧
  next (chan k') = next (chan k) ∧
  proc (chan k') = proc (chan k) ∧
  k' = k.
Proof.
  unfold empty, exec, result. intros H.
  rewrite _stack_pop_empty by lia. done.
Qed.

(** ** Push *)

(** C7: for every push with no waiter registered, whatever the state, the
    data word is stored at the slot [next] points to, this being the only
    slot written, and [next] is advanced by one; [base] is not even read,
    so nothing is compared against a capacity, in either push variant.
    Hence, with fewer than [cap] values buffered the store lands inside
    the [cap] slots of the backing buffer, and with [cap] or more values
    buffered the same store is made, past the end of the buffer. *)
Theorem _stack_push_unchecked (k : kernel) (data : Z) :
  proc (chan k) = None ->
  let k' := exec (_stack_push data) k in
  let t := trace (_stack_push data) k in
  mem k' = <[next (chan k) := data]> (mem k) ∧
  slot (mem k') (next (chan k)) = data ∧
  next (chan k') = next (chan k) + 1 ∧
  base (chan k') = base (chan k) ∧
  proc (chan k') = None ∧
  filter (fun e => writes_mem e = true) t =
    [ev_mem_store (next (chan k)) data] ∧
  (ev_load f_base ∉ t) ∧
  nano_task_stack_push data k = (Returned tt, k', t) ∧
  (∀ cap a v,
     ev_mem_store a v ∈ t ->
     0 <= next (chan k) - base (chan k) < cap ->
     base (chan k) <= a < base (chan k) + cap) ∧
  (∀ cap,
     cap <= next (chan k) - base (chan k) ->
     ev_mem_store (next (chan k)) data ∈ t ∧
     ¬ next (chan k) < base (chan k) + cap).
Proof.
  intros Hp k' t. subst k' t.
  rewrite (nano_task_stack_push_store _ _ Hp).
  unfold exec, trace. rewrite (_stack_push_store _ _ Hp); simpl.
  split_and!; try done.
  - unfold slot. by rewrite lookup_insert_eq.
  - intros Hin. repeat (apply elem_of_cons in Hin as [Hin|Hin]; [done|]).
    by apply elem_of_nil in Hin.
  - intros cap a v Hin Hc.
    repeat (apply elem_of_cons in Hin as [Hin|Hin];
            [try done; injection Hin as -> ->; lia|]).
    by apply elem_of_nil in Hin.
  - intros cap Hc. split; [|lia].
    do 3 apply list_elem_of_further. apply list_elem_of_here.
Qed.

(** C4: for every call of [nano_task_stack_push]: with a waiter registered
    it makes the hand-off of [_stack_push] (same stack object, memory,
    return values and ready set, same events up to the release of the
    mask) and then gives the processor to the scheduler in [_Swap], the
    call coming back to its caller only when the task is resumed; with no
    waiter it stores the data word exactly as [_stack_push] does, returns
    at once and never calls [_Swap]. *)
Theorem nano_task_stack_push_spec (k : kernel) (data : Z) :
  let k' := exec (nano_task_stack_push data) k in
  let t := trace (nano_task_stack_push data) k in
  let ki := exec (_stack_push data) k in
  let ti := trace (_stack_push data) k in
  match proc (chan k) with
  | Some w =>
      result (nano_task_stack_push data) k = Suspended (fun _ => tt) ∧
      handed_off w data k k' t ∧
      handed_off w data k ki ti ∧
      chan k' = chan ki ∧ mem k' = mem ki ∧
      rtn k' = rtn ki ∧ fiber k' = fiber ki ∧
      t = removelast ti ++ [ev_Swap (irq_locked k)] ∧
      last t = Some (ev_Swap (irq_locked k)) ∧
      never yields ti = true
  | None =>
      result (nano_task_stack_push data) k = Returned tt ∧
      k' = ki ∧ t = ti ∧
      mem k' = <[next (chan k) := data]> (mem k) ∧
      next (chan k') = next (chan k) + 1 ∧
      never yields t = true
  end.
Proof.
  destruct (proc (chan k)) as [w|] eqn:Hp; unfold exec, result, trace.
  - rewrite (nano_task_stack_push_handoff _ _ _ Hp).
    rewrite (_stack_push_handoff _ _ _ Hp); simpl.
    unfold handed_off; simpl. split_and!; done.
  - rewrite (nano_task_stack_push_store _ _ Hp).
    unfold exec, trace. rewrite (_stack_push_store _ _ Hp); simpl. done.
Qed.

(** ** Cooperative-thread pop-or-wait *)

(** C6: for every call of [nano_fiber_stack_pop_wait] with [next > base],
    the call pops from the buffer as [_stack_pop] does (same stack object
    afterwards, and the value returned is the one [_stack_pop] puts in its
    output slot), returns that value to its caller, and neither writes the
    waiting-context field nor calls [_Swap]. *)
Theorem nano_fiber_stack_pop_wait_nonempty (k : kernel) (pData : Z) :
  next (chan k) > base (chan k) ->
  let k' := exec nano_fiber_stack_pop_wait k in
  let t := trace nano_fiber_stack_pop_wait k in
  let kp := exec (_stack_pop pData) k in
  result nano_fiber_stack_pop_wait k =
    Returned (slot (mem k) (next (chan k) - 1)) ∧
  result (_stack_pop pData) k = 1 ∧
  result nano_fiber_stack_pop_wait k = Returned (slot (mem kp) pData) ∧
  chan k' = chan kp ∧
  next (chan k') = next (chan k) - 1 ∧
  proc (chan k') = proc (chan k) ∧
  mem k' = mem k ∧
  never writes_proc t = true ∧
  never yields t = true.
Proof.
  intros H. unfold exec, result, trace.
  rewrite nano_fiber_stack_pop_wait_pop by lia.
  rewrite _stack_pop_found by done; simpl.
  split_and!; try done. unfold slot at 2. by rewrite lookup_insert_eq.
Qed.

(** C9: the waiter field holds at most one context.  For every state with
    a waiter [w] registered, a further [nano_fiber_stack_pop_wait] either
    finds the buffer non-empty and pops directly, [w] staying registered,
    or puts the calling context in the field in place of [w]; [w] is then
    kept nowhere: the ready set and the pending return values are as
    before, and the next push wakes the second caller only. *)
Theorem single_waiter_slot (k : kernel) (w : tCCS) :
  proc (chan k) = Some w ->
  let k' := exec nano_fiber_stack_pop_wait k in
  (next (chan k) ≠ base (chan k) ∧
   result nano_fiber_stack_pop_wait k =
     Returned (slot (mem k) (next (chan k) - 1)) ∧
   next (chan k') = next (chan k) - 1 ∧
   proc (chan k') = Some w)
  ∨
  (next (chan k) = base (chan k) ∧
   result nano_fiber_stack_pop_wait k = Suspended to_uint32 ∧
   proc (chan k') = Some (current k) ∧
   fiber k' = fiber k ∧ rtn k' = rtn k ∧
   ∀ v, let k2 := exec (_stack_push v) k' in
        proc (chan k2) = None ∧
        fiber k2 = {[current k]} ∪ fiber k ∧
        rtn k2 = <[current k := v]> (rtn k)).
Proof.
  intros Hp. unfold exec, result.
  destruct (decide (next (chan k) = base (chan k))) as [He|Hne].
  - right. rewrite (nano_fiber_stack_pop_wait_pend _ He); simpl.
    split_and!; done.
  - left. rewrite (nano_fiber_stack_pop_wait_pop _ Hne); simpl. done.
Qed.

(** C2: when [nano_fiber_stack_pop_wait] is called on an empty buffer with
    no waiter registered, the caller is registered and suspended; whatever
    the rest of the kernel does meanwhile without touching the stack
    object, a following push of [v], by either variant, clears the waiter
    field, puts exactly [v] in the pending return value of that caller and
    of no other context, adds the caller to the ready set, and leaves
    [base], [next] and every slot as they were without reading or writing
    any of them; the value the resumed call returns is [v]. *)
Theorem handoff_delivers (k k1 : kernel) (v : Z) :
  empty k -> proc (chan k) = None -> is_uint32 v ->
  chan k1 = chan (exec nano_fiber_stack_pop_wait k) ->
  let w := current k in
  let k2 := exec (_stack_push v) k1 in
  let k2' := exec (nano_task_stack_push v) k1 in
  proc (chan k1) = Some w ∧
  handed_off w v k1 k2 (trace (_stack_push v) k1) ∧
  handed_off w v k1 k2' (trace (nano_task_stack_push v) k1) ∧
  empty k2 ∧ empty k2' ∧
  rtn k2 !! w = Some v ∧ rtn k2' !! w = Some v ∧
  (∀ c, c ≠ w -> rtn k2 !! c = rtn k1 !! c) ∧
  w ∈ fiber k2 ∧ w ∈ fiber k2' ∧
  ∃ resume,
    result nano_fiber_stack_pop_wait k = Suspended resume ∧
    resume (swap_return k2 w) = v ∧ resume (swap_return k2' w) = v.
Proof.
  unfold empty. intros He Hp [Hv0 Hv1] Hc.
  unfold exec, result in *.
  rewrite (nano_fiber_stack_pop_wait_pend _ He) in *; simpl in Hc.
  assert (Hw : proc (chan k1) = Some (current k)) by by rewrite Hc.
  simpl. unfold trace.
  rewrite (_stack_push_handoff _ _ _ Hw).
  rewrite (nano_task_stack_push_handoff _ _ _ Hw); simpl.
  unfold handed_off, swap_return; simpl.
  rewrite !lookup_insert_eq; simpl. rewrite !Hc; simpl.
  split_and!; try done.
  - intros c Hne. by rewrite lookup_insert_ne.
  - set_solver.
  - set_solver.
  - exists to_uint32. unfold to_uint32.
    rewrite Z.mod_small by (unfold uint32_max in *; lia). done.
Qed.

(** ** LIFO order *)

Lemma contents_insert_out (m : gmap Z Z) (b a v : Z) (d : nat) :
  a < b ∨ b + Z.of_nat d <= a ->
  contents (<[a := v]> m) b d = contents m b d.
Proof.
  induction d as [|d IH]; intros Ha; [done|].
  cbn [contents]. rewrite IH by lia.
  unfold slot. rewrite lookup_insert_ne by lia. done.
Qed.

Lemma length_contents (m : gmap Z Z) (b : Z) (d : nat) :
  length (contents m b d) = d.
Proof. induction d as [|d IH]; [done|]. cbn [contents length]. by rewrite IH. Qed.

(** One call on the stack answers as the same call on the list of its
    buffered values, and takes the buffered values to the new list. *)
Lemma call_refines (o : op) (os : list op) (k : kernel) (d : nat) :
  buffered k d ->
  out_slots_free (base (chan k)) d (o :: os) ->
  let s := contents (mem k) (base (chan k)) d in
  let k' := (call o k).2 in
  let s' := (lifo_call o s).2 in
  (call o k).1 = (lifo_call o s).1 ∧
  base (chan k') = base (chan k) ∧
  buffered k' (length s') ∧
  contents (mem k') (base (chan k')) (length s') = s' ∧
  out_slots_free (base (chan k')) (length s') os.
Proof.
  intros [Hp Hn] Hfree.
  assert (Hstore : ∀ v,
    let k' := exec (_stack_push v) k in
    let s' := v :: contents (mem k) (base (chan k)) d in
    base (chan k') = base (chan k) ∧ buffered k' (length s') ∧
    contents (mem k') (base (chan k')) (length s') = s' ∧
    (out_slots_free (base (chan k)) (S d) os ->
     out_slots_free (base (chan k')) (length s') os)).
  { intros v. unfold exec, buffered. rewrite (_stack_push_store _ _ Hp).
    cbn [fst snd chan mem set_mem set_chan next base proc length].
    rewrite length_contents. split_and!; try done; [lia|].
    cbn [contents]. rewrite contents_insert_out by lia.
    unfold slot. rewrite Hn, lookup_insert_eq. done. }
  destruct o as [v|v|p]; cbn [call lifo_call fst snd].
  - destruct (Hstore v) as (Hb & Hbuf & Hc & Hf). split_and!; try done.
    by apply Hf.
  - unfold exec at 1 2 3 4 5. rewrite (nano_task_stack_push_store _ _ Hp).
    cbn [fst snd].
    destruct (Hstore v) as (Hb & Hbuf & Hc & Hf). split_and!; try done.
    by apply Hf.
  - destruct d as [|d]; cbn [contents] in *.
    + unfold exec, result. rewrite _stack_pop_empty by lia.
      cbn [fst snd length contents]. split_and!; try done.
    + destruct Hfree as [Hout Hfree].
      unfold exec, result, buffered. rewrite _stack_pop_found by lia.
      cbn [fst snd chan mem set_mem set_chan next base proc].
      rewrite length_contents.
      replace (next (chan k) - 1) with (base (chan k) + Z.of_nat d) by lia.
      rewrite contents_insert_out by done.
      unfold slot at 1. rewrite lookup_insert_eq.
      split_and!; done.
Qed.

(** A sequence of calls answers as the same sequence on the list. *)
Lemma calls_refine (os : list op) : ∀ (k : kernel) (d : nat),
  buffered k d ->
  out_slots_free (base (chan k)) d os ->
  let s := contents (mem k) (base (chan k)) d in
  let k' := (calls os k).2 in
  let s' := (lifo_calls os s).2 in
  (calls os k).1 = (lifo_calls os s).1 ∧
  buffered k' (length s') ∧
  contents (mem k') (base (chan k')) (length s') = s'.
Proof.
  induction os as [|o os IH]; intros k d Hbuf Hfree.
  - cbn [calls lifo_calls fst snd]. rewrite length_contents. done.
  - destruct (call_refines o os k d Hbuf Hfree) as (Ha & Hb & Hbuf' & Hc & Hf).
    cbn [calls lifo_calls].
    destruct (call o k) as [a k1], (lifo_call o _) as [a' s1];
      cbn [fst snd] in *; subst a'.
    specialize (IH k1 (length s1) Hbuf' Hf). rewrite Hc in IH.
    destruct (calls os k1) as [l k2], (lifo_calls os s1) as [l' s2];
      cbn [fst snd] in *.
    destruct IH as (-> & IH2 & IH3). done.
Qed.

(** C1, as amended: for every sequence of pushes (of either variant) and
    non-blocking pops on a stack just initialized on the buffer at [data],
    provided the output slot of each pop is not a slot of the buffer that
    is still occupied after that pop, every
    call answers as the same call on a list used as a LIFO: a pop returns
    the newest value not yet popped, and a pop on the empty buffer reports
    "not found"; no waiter is registered on the way, and the buffer ends
    holding the values of the list.  In particular push 1, 2, 3, pop, pop,
    push 9, pop, pop, pop on a 4-slot buffer gives 3, 2, then 9, 1, then
    "not found". *)
Theorem lifo_order :
  (∀ (k0 : kernel) (data : Z) (os : list op),
     out_slots_free data 0 os ->
     let k := exec (nano_stack_init data) k0 in
     let k' := (calls os k).2 in
     let s' := (lifo_calls os []).2 in
     (calls os k).1 = (lifo_calls os []).1 ∧
     proc (chan k') = None ∧
     next (chan k') = base (chan k') + Z.of_nat (length s') ∧
     contents (mem k') (base (chan k')) (length s') = s')
  ∧
  (∀ (k0 : kernel) (data pData : Z),
     pData < data ∨ data + 4 <= pData ->
     (calls [op_push 1; op_push 2; op_push 3; op_pop pData; op_pop pData;
             op_push 9; op_pop pData; op_pop pData; op_pop pData]
        (exec (nano_stack_init data) k0)).1 =
     [pushed; pushed; pushed; popped 3; popped 2;
      pushed; popped 9; popped 1; not_found]).
Proof.
  assert (H : ∀ (k0 : kernel) (data : Z) (os : list op),
     out_slots_free data 0 os ->
     let k := exec (nano_stack_init data) k0 in
     let k' := (calls os k).2 in
     let s' := (lifo_calls os []).2 in
     (calls os k).1 = (lifo_calls os []).1 ∧
     proc (chan k') = None ∧
     next (chan k') = base (chan k') + Z.of_nat (length s') ∧
     contents (mem k') (base (chan k')) (length s') = s').
  { intros k0 data os Hfree k.
    assert (Hk : k = set_chan (mk_nano_stack data data None) k0)
      by (unfold k, exec; by rewrite nano_stack_init_eq).
    assert (Hb : base (chan k) = data) by by rewrite Hk.
    assert (Hbuf : buffered k 0) by (rewrite Hk; split; [done|cbn; lia]).
    rewrite <- Hb in Hfree.
    destruct (calls_refine os k 0%nat Hbuf Hfree) as (Ha & [Hp' Hn'] & Hc).
    cbn [contents] in *. done. }
  split; [exact H|].
  intros k0 data p Hout.
  assert (Hfree : out_slots_free data 0
            [op_push 1; op_push 2; op_push 3; op_pop p; op_pop p;
             op_push 9; op_pop p; op_pop p; op_pop p])
    by (cbn [out_slots_free]; repeat split; lia).
  rewrite (proj1 (H k0 data _ Hfree)). done.
Qed.

(** Without the condition on output slots the order is lost: after
    pushing 1 and 2 on the buffer at slot 100, a pop whose output slot is
    slot 100 itself returns 2 and overwrites the buffered 1, so that the
    next pop returns 2 again where the list gives 1. *)
Lemma lifo_order_out_slot_in_buffer :
  let os := [op_push 1; op_push 2; op_pop 100; op_pop 50] in
  let k := exec (nano_stack_init 100) k_boot in
  (calls os k).1 = [pushed; pushed; popped 2; popped 2] ∧
  (lifo_calls os []).1 = [pushed; pushed; popped 2; popped 1] ∧
  (calls os k).1 ≠ (lifo_calls os []).1 ∧
  proc (chan (calls os k).2) = None.
Proof. split_and!; [reflexivity|reflexivity|discriminate|reflexivity]. Qed.

(** ** Background-task pop-or-wait *)

Lemma nano_task_stack_pop_wait_found k irqs :
  next (chan k) > base (chan k) ->
  nano_task_stack_pop_wait irqs k =
  (Some (slot (mem k) (next (chan k) - 1)),
   set_chan
     (mk_nano_stack (next (chan k) - 1) (base (chan k)) (proc (chan k))) k,
   [ev_irq_lock; ev_load f_next; ev_load f_base; ev_load f_next;
    ev_store_next (next (chan k) - 1); ev_load f_next;
    ev_mem_load (next (chan k) - 1); ev_irq_unlock (irq_locked k)]).
Proof.
  destruct k as [[nx bs pr] m cur fb rt iq]; simpl. intros H%Z.gtb_gt.
  destruct irqs; unfold nano_task_stack_pop_wait, mbind, M_bind, bind; simpl;
    by rewrite H.
Qed.

Lemma nano_task_stack_pop_wait_idle k :
  ¬ next (chan k) > base (chan k) ->
  nano_task_stack_pop_wait [] k =
  (None, k,
   [ev_irq_lock; ev_load f_next; ev_load f_base;
    ev_atomic_idle (irq_locked k)]).
Proof.
  destruct k as [[nx bs pr] m cur fb rt iq]; simpl. intros H.
  unfold nano_task_stack_pop_wait, mbind, M_bind, bind; simpl.
  destruct (nx >? bs) eqn:E; [by apply Z.gtb_gt in E|done].
Qed.

(** On an empty buffer the task idles, the next interrupt handler runs,
    and the loop starts over. *)
Lemma nano_task_stack_pop_wait_loop k isr irqs :
  ¬ next (chan k) > base (chan k) ->
  exec (nano_task_stack_pop_wait (isr :: irqs)) k =
    exec (nano_task_stack_pop_wait irqs) (exec isr k) ∧
  result (nano_task_stack_pop_wait (isr :: irqs)) k =
    result (nano_task_stack_pop_wait irqs) (exec isr k).
Proof.
  destruct k as [[nx bs pr] m cur fb rt iq]; simpl. intros H.
  unfold exec, result. cbn [nano_task_stack_pop_wait].
  unfold mbind, M_bind, bind; simpl.
  destruct (nx >? bs) eqn:E; [by apply Z.gtb_gt in E|]. simpl.
  destruct (isr _) as [[[] k1] t1]; simpl.
  by destruct (nano_task_stack_pop_wait irqs k1) as [[r k2] t2].
Qed.

(** A push made by an interrupt handler during the idle phase is seen when
    the task wakes. *)
Lemma nano_task_stack_pop_wait_sees_push k v irqs :
  empty k -> proc (chan k) = None ->
  result (nano_task_stack_pop_wait (_stack_push v :: irqs)) k = Some v ∧
  empty (exec (nano_task_stack_pop_wait (_stack_push v :: irqs)) k).
Proof.
  unfold empty. intros He Hp.
  destruct (nano_task_stack_pop_wait_loop k (_stack_push v) irqs) as [-> ->];
    [lia|].
  unfold exec, result. rewrite (_stack_push_store _ _ Hp). cbn [fst snd].
  rewrite nano_task_stack_pop_wait_found by (simpl; lia). simpl.
  unfold slot. replace (next (chan k) + 1 - 1) with (next (chan k)) by lia.
  rewrite lookup_insert_eq. split; [done|lia].
Qed.

(** ** The waiter invariant *)

Lemma waiter_inv_init k data : waiter_inv (exec (nano_stack_init data) k).
Proof.
  unfold waiter_inv, empty, exec. rewrite nano_stack_init_eq; simpl.
  split; [lia|done].
Qed.

Lemma waiter_inv_push k data :
  waiter_inv k -> waiter_inv (exec (_stack_push data) k).
Proof.
  unfold waiter_inv, empty, exec. intros [Hle Hw].
  destruct (proc (chan k)) as [w|] eqn:Hp.
  - rewrite (_stack_push_handoff _ _ _ Hp); simpl.
    split; [done|]. by intros [? [=]].
  - rewrite (_stack_push_store _ _ Hp); simpl.
    split; [lia|]. by intros [? [=]].
Qed.

Lemma waiter_inv_task_push k data :
  waiter_inv k -> waiter_inv (exec (nano_task_stack_push data) k).
Proof.
  unfold waiter_inv, empty, exec. intros [Hle Hw].
  destruct (proc (chan k)) as [w|] eqn:Hp.
  - rewrite (nano_task_stack_push_handoff _ _ _ Hp); simpl.
    split; [done|]. by intros [? [=]].
  - rewrite (nano_task_stack_push_store _ _ Hp); simpl.
    unfold exec. rewrite (_stack_push_store _ _ Hp); simpl.
    split; [lia|]. by intros [? [=]].
Qed.

Lemma waiter_inv_pop k pData :
  waiter_inv k -> waiter_inv (exec (_stack_pop pData) k).
Proof.
  unfold waiter_inv, empty, exec. intros [Hle Hw].
  destruct (decide (next (chan k) > base (chan k))) as [Hgt|Hngt].
  - rewrite (_stack_pop_found _ _ Hgt); simpl.
    split; [lia|]. intros Hs. specialize (Hw Hs). lia.
  - by rewrite (_stack_pop_empty _ _ Hngt).
Qed.

Lemma waiter_inv_fiber_pop_wait k :
  waiter_inv k -> waiter_inv (exec nano_fiber_stack_pop_wait k).
Proof.
  unfold waiter_inv, empty, exec. intros [Hle Hw].
  destruct (decide (next (chan k) = base (chan k))) as [He|Hne].
  - rewrite (nano_fiber_stack_pop_wait_pend _ He); simpl. split; [lia|done].
  - rewrite (nano_fiber_stack_pop_wait_pop _ Hne); simpl.
    split; [lia|]. intros Hs. specialize (Hw Hs). lia.
Qed.

Lemma waiter_inv_isr k o : waiter_inv k -> waiter_inv (exec (isr_run o) k).
Proof.
  destruct o as [d|p]; cbn [isr_run].
  - apply waiter_inv_push.
  - rewrite exec_bind. by apply waiter_inv_pop.
Qed.

Lemma waiter_inv_task_pop_wait irqs : ∀ k,
  waiter_inv k ->
  waiter_inv (exec (nano_task_stack_pop_wait (isr_run <$> irqs)) k).
Proof.
  induction irqs as [|o irqs IH]; intros k Hinv;
    destruct (decide (next (chan k) > base (chan k))) as [Hgt|Hngt].
  - unfold exec. rewrite (nano_task_stack_pop_wait_found _ _ Hgt).
    destruct Hinv as [Hle Hw]. unfold waiter_inv, empty in *; simpl.
    split; [lia|]. intros Hs. specialize (Hw Hs). lia.
  - rewrite fmap_nil. unfold exec.
    by rewrite (nano_task_stack_pop_wait_idle _ Hngt).
  - unfold exec. rewrite (nano_task_stack_pop_wait_found _ _ Hgt).
    destruct Hinv as [Hle Hw]. unfold waiter_inv, empty in *; simpl.
    split; [lia|]. intros Hs. specialize (Hw Hs). lia.
  - rewrite fmap_cons.
    destruct (nano_task_stack_pop_wait_loop k (isr_run o) (isr_run <$> irqs))
      as [-> _]; [done|].
    by apply IH, waiter_inv_isr.
Qed.

Lemma waiter_inv_step k k' : step k k' -> waiter_inv k -> waiter_inv k'.
Proof.
  destruct 1 as [data k|data k|data k|pData k|k|irqs k|k k' Hc]; intros Hinv.
  - apply waiter_inv_init.
  - by apply waiter_inv_push.
  - by apply waiter_inv_task_push.
  - by apply waiter_inv_pop.
  - by apply waiter_inv_fiber_pop_wait.
  - by apply waiter_inv_task_pop_wait.
  - unfold waiter_inv, empty in *. by rewrite Hc.
Qed.

Lemma waiter_inv_reachable k : reachable k -> waiter_inv k.
Proof.
  induction 1 as [data k|k k' _ IH Hstep].
  - apply waiter_inv_init.
  - by apply (waiter_inv_step k k').
Qed.

(** With a waiter registered in a reachable state the buffer is empty, so
    a further pop-or-wait always takes the waiter slot over. *)
Lemma second_waiter_replaces k w :
  reachable k -> proc (chan k) = Some w ->
  proc (chan (exec nano_fiber_stack_pop_wait k)) = Some (current k).
Proof.
  intros Hr Hp. destruct (waiter_inv_reachable k Hr) as [_ Hw].
  unfold exec. rewrite nano_fiber_stack_pop_wait_pend; [done|].
  apply Hw. by rewrite Hp.
Qed.

(** C3: in every state reached from an initialized stack by pushes, pops
    and pop-or-waits in any order, interleaved with any activity of the
    rest of the kernel, a context sits in the waiting-context field only
    while [next == base]; [nano_fiber_stack_pop_wait] changes the field
    only when it finds [next == base]; and a push that finds a waiter
    clears the field, delivers the value and readies the waiter inside the
    one critical section it opens with the lock and closes with the unlock
    (or, for the task variant, with [_Swap]). *)
Theorem waiter_only_while_empty (k : kernel) :
  reachable k ->
  base (chan k) <= next (chan k) ∧
  (is_Some (proc (chan k)) -> empty k) ∧
  (proc (chan (exec nano_fiber_stack_pop_wait k)) ≠ proc (chan k) ->
   empty k) ∧
  (∀ w v, proc (chan k) = Some w ->
     proc (chan (exec (_stack_push v) k)) = None ∧
     proc (chan (exec (nano_task_stack_push v) k)) = None ∧
     trace (_stack_push v) k =
       [ev_irq_lock; ev_load f_proc; ev_store_proc None;
        ev_fiberRtnValueSet w v; ev_insert_ccs w;
        ev_irq_unlock (irq_locked k)] ∧
     trace (nano_task_stack_push v) k =
       [ev_irq_lock; ev_load f_proc; ev_store_proc None;
        ev_fiberRtnValueSet w v; ev_insert_ccs w;
        ev_Swap (irq_locked k)] ∧
     one_critical_section (trace (_stack_push v) k) = true ∧
     one_critical_section (trace (nano_task_stack_push v) k) = true).
Proof.
  intros Hr. destruct (waiter_inv_reachable k Hr) as [Hle Hw].
  split_and!; try done.
  - intros Hne. destruct (decide (next (chan k) = base (chan k))) as [|Hn];
      [done|].
    exfalso. apply Hne. unfold exec.
    by rewrite (nano_fiber_stack_pop_wait_pop _ Hn).
  - intros w v Hp. unfold exec, trace.
    rewrite (_stack_push_handoff _ _ _ Hp).
    rewrite (nano_task_stack_push_handoff _ _ _ Hp). done.
Qed.

(** ** The theorems at work on the sample states *)

(** The scenario on the 4-slot buffer at slot 100, the output slot being
    slot 50. *)
Lemma lifo_order_witness :
  out_slots_free 100 0
    [op_push 1; op_push 2; op_push 3; op_pop 50; op_pop 50;
     op_push 9; op_pop 50; op_pop 50; op_pop 50] ∧
  (50 < 100 ∨ 100 + 4 <= 50) ∧
  (calls [op_push 1; op_push 2; op_push 3; op_pop 50; op_pop 50;
          op_push 9; op_pop 50; op_pop 50; op_pop 50] k_fresh).1 =
  [pushed; pushed; pushed; popped 3; popped 2;
   pushed; popped 9; popped 1; not_found] ∧
  (calls [op_push 1; op_push 2; op_push 3; op_pop 50; op_pop 50;
          op_push 9; op_pop 50; op_pop 50; op_pop 50] k_fresh).1 =
  (lifo_calls [op_push 1; op_push 2; op_push 3; op_pop 50; op_pop 50;
               op_push 9; op_pop 50; op_pop 50; op_pop 50] []).1.
Proof.
  assert (Hfree : out_slots_free 100 0
    [op_push 1; op_push 2; op_push 3; op_pop 50; op_pop 50;
     op_push 9; op_pop 50; op_pop 50; op_pop 50])
    by (cbn [out_slots_free]; repeat split; lia).
  assert (Hout : 50 < 100 ∨ 100 + 4 <= 50) by lia.
  split; [exact Hfree|]. split; [exact Hout|]. split.
  - exact (proj2 lifo_order k_boot 100 50 Hout).
  - exact (proj1 (proj1 lifo_order k_boot 100 _ Hfree)).
Defined.

(** Fiber 1 pends on the fresh stack; task 2 pushes 42: the value is
    delivered to fiber 1, which is made ready, and the buffer stays
    empty. *)
Lemma handoff_delivers_witness :
  empty k_fresh ∧ proc (chan k_fresh) = None ∧ is_uint32 42 ∧
  chan k_pending = chan (exec nano_fiber_stack_pop_wait k_fresh) ∧
  let k2 := exec (nano_task_stack_push 42) k_pending in
  proc (chan k_pending) = Some 1%positive ∧
  handed_off 1%positive 42 k_pending k2
    (trace (nano_task_stack_push 42) k_pending) ∧
  empty k2 ∧
  rtn k2 !! 1%positive = Some 42 ∧
  1%positive ∈ fiber k2.
Proof.
  assert (H1 : empty k_fresh) by reflexivity.
  assert (H2 : proc (chan k_fresh) = None) by reflexivity.
  assert (H3 : is_uint32 42) by (unfold is_uint32, uint32_max; lia).
  assert (H4 : chan k_pending = chan (exec nano_fiber_stack_pop_wait k_fresh))
    by reflexivity.
  destruct (handoff_delivers k_fresh k_pending 42 H1 H2 H3 H4)
    as (C1 & _ & C3 & _ & C5 & _ & C7 & _ & _ & C10 & _).
  split; [exact H1|]. split; [exact H2|]. split; [exact H3|].
  split; [exact H4|]. intros k2.
  split; [exact C1|]. split; [exact C3|]. split; [exact C5|].
  split; [exact C7|exact C10].
Defined.

(** The state in which fiber 1 pends is reachable, has a waiter, and is
    empty. *)
Lemma waiter_only_while_empty_witness :
  reachable k_pending ∧
  is_Some (proc (chan k_pending)) ∧
  empty k_pending ∧
  one_critical_section (trace (_stack_push 42) k_pending) = true.
Proof.
  assert (Hr : reachable k_pending).
  { apply (reach_step (exec nano_fiber_stack_pop_wait k_fresh)).
    - apply (reach_step k_fresh); [apply reach_init|apply step_fiber_pop_wait].
    - apply step_env. reflexivity. }
  assert (Hs : is_Some (proc (chan k_pending))) by (exists 1%positive; reflexivity).
  destruct (waiter_only_while_empty k_pending Hr) as (_ & Hw & _ & Hcs).
  split_and!; [exact Hr|exact Hs|exact (Hw Hs)|].
  exact (proj1 (proj2 (proj2 (proj2 (proj2
           (Hcs 1%positive 42 eq_refl)))))).
Defined.

(** Pop-or-wait on the stack holding 1, 2, 3 returns 3 at once. *)
Lemma nano_fiber_stack_pop_wait_nonempty_witness :
  next (chan k_three) > base (chan k_three) ∧
  let k' := exec nano_fiber_stack_pop_wait k_three in
  let t := trace nano_fiber_stack_pop_wait k_three in
  let kp := exec (_stack_pop 50) k_three in
  result nano_fiber_stack_pop_wait k_three =
    Returned (slot (mem k_three) (next (chan k_three) - 1)) ∧
  result (_stack_pop 50) k_three = 1 ∧
  result nano_fiber_stack_pop_wait k_three = Returned (slot (mem kp) 50) ∧
  chan k' = chan kp ∧
  next (chan k') = next (chan k_three) - 1 ∧
  proc (chan k') = proc (chan k_three) ∧
  mem k' = mem k_three ∧
  never writes_proc t = true ∧
  never yields t = true.
Proof.
  assert (H : next (chan k_three) > base (chan k_three)) by reflexivity.
  split; [exact H|].
  exact (nano_fiber_stack_pop_wait_nonempty k_three 50 H).
Defined.

(** A push on the fresh stack stores at slot 100, the first of the
    buffer. *)
Lemma _stack_push_unchecked_witness :
  proc (chan k_fresh) = None ∧
  let k' := exec (_stack_push 7) k_fresh in
  mem k' = <[100 := 7]> (mem k_fresh) ∧
  slot (mem k') 100 = 7 ∧
  next (chan k') = 101 ∧
  nano_task_stack_push 7 k_fresh = (Returned tt, k', trace (_stack_push 7) k_fresh).
Proof.
  assert (H : proc (chan k_fresh) = None) by reflexivity.
  destruct (_stack_push_unchecked k_fresh 7 H)
    as (C1 & C2 & C3 & _ & _ & _ & _ & C8 & _).
  split; [exact H|]. split_and!; [exact C1|exact C2|exact C3|exact C8].
Defined.

(** A second fiber, 2, pends while fiber 1 is registered: it takes the
    slot. *)
Lemma single_waiter_slot_witness :
  proc (chan k_pending) = Some 1%positive ∧
  proc (chan (exec nano_fiber_stack_pop_wait k_pending)) = Some 2%positive ∧
  (next (chan k_pending) ≠ base (chan k_pending) ∨
   fiber (exec nano_fiber_stack_pop_wait k_pending) = fiber k_pending).
Proof.
  assert (H : proc (chan k_pending) = Some 1%positive) by reflexivity.
  split; [exact H|]. split; [reflexivity|].
  destruct (single_waiter_slot k_pending 1%positive H)
    as [(Hne & _)|(_ & _ & _ & Hf & _)]; [left; exact Hne|right; exact Hf].
Defined.

(** A pop on the fresh stack finds nothing and changes nothing. *)
Lemma _stack_pop_empty_unchanged_witness :
  empty k_fresh ∧
  let k' := exec (_stack_pop 50) k_fresh in
  result (_stack_pop 50) k_fresh = 0 ∧
  base (chan k') = base (chan k_fresh) ∧
  next (chan k') = next (chan k_fresh) ∧
  proc (chan k') = proc (chan k_fresh) ∧
  k' = k_fresh.
Proof.
  assert (H : empty k_fresh) by reflexivity.
  split; [exact H|].
  exact (_stack_pop_empty_unchanged k_fresh 50 H).
Defined.

(** * Further properties of the routines *)

Lemma result_bind {A B} (m : M A) (f : A -> M B) k :
  result (m ≫= f) k = result (f (result m k)) (exec m k).
Proof.
  unfold exec, result, mbind, M_bind, bind.
  destruct (m k) as [[a k1] t1]; simpl. by destruct (f a k1) as [[b k2] t2].
Qed.

Lemma trace_bind {A B} (m : M A) (f : A -> M B) k :
  trace (m ≫= f) k = trace m k ++ trace (f (result m k)) (exec m k).
Proof.
  unfold exec, result, trace, mbind, M_bind, bind.
  destruct (m k) as [[a k1] t1]; simpl. by destruct (f a k1) as [[b k2] t2].
Qed.

Lemma nano_task_stack_pop_wait_loop_trace k isr irqs :
  ¬ next (chan k) > base (chan k) ->
  trace (nano_task_stack_pop_wait (isr :: irqs)) k =
    [ev_irq_lock; ev_load f_next; ev_load f_base;
     ev_atomic_idle (irq_locked k)]
    ++ trace isr k ++ trace (nano_task_stack_pop_wait irqs) (exec isr k).
Proof.
  destruct k as [[nx bs pr] m cur fb rt iq]; simpl. intros H.
  unfold exec, trace. cbn [nano_task_stack_pop_wait].
  unfold mbind, M_bind, bind; simpl.
  destruct (nx >? bs) eqn:E; [by apply Z.gtb_gt in E|]. simpl.
  destruct (isr _) as [[[] k1] t1]; simpl.
  by destruct (nano_task_stack_pop_wait irqs k1) as [[r k2] t2].
Qed.


Lemma isr_run_trace k o :
  trace (isr_run o) k =
  match o with
  | isr_push d => trace (_stack_push d) k
  | isr_pop p => trace (_stack_pop p) k
  end.
Proof.
  destruct o as [d|p]; cbn [isr_run]; [done|].
  rewrite trace_bind. unfold trace at 2; simpl. by rewrite app_nil_r.
Qed.

Lemma isr_run_exec k o :
  exec (isr_run o) k =
  match o with
  | isr_push d => exec (_stack_push d) k
  | isr_pop p => exec (_stack_pop p) k
  end.
Proof.
  destruct o as [d|p]; cbn [isr_run]; [done|]. by rewrite exec_bind.
Qed.

(** ** The masking discipline *)

Lemma well_masked_app (t1 t2 : list event) : ∀ b,
  well_masked b t1 = true ->
  well_masked b (t1 ++ t2) = well_masked false t2.
Proof.
  induction t1 as [|e t1 IH]; intros b H.
  - destruct b; [done|]. done.
  - destruct e, b; simpl in *; try done; by apply IH.
Qed.

Lemma _stack_push_masked k data :
  well_masked false (trace (_stack_push data) k) = true ∧
  irq_locked (exec (_stack_push data) k) = irq_locked k.
Proof.
  unfold trace, exec. destruct (proc (chan k)) as [w|] eqn:Hp.
  - by rewrite (_stack_push_handoff _ _ _ Hp).
  - by rewrite (_stack_push_store _ _ Hp).
Qed.

Lemma _stack_pop_masked k pData :
  well_masked false (trace (_stack_pop pData) k) = true ∧
  irq_locked (exec (_stack_pop pData) k) = irq_locked k.
Proof.
  unfold trace, exec.
  destruct (decide (next (chan k) > base (chan k))) as [H|H].
  - by rewrite (_stack_pop_found _ _ H).
  - by rewrite (_stack_pop_empty _ _ H).
Qed.

Lemma isr_run_masked k o :
  well_masked false (trace (isr_run o) k) = true ∧
  irq_locked (exec (isr_run o) k) = irq_locked k.
Proof.
  rewrite isr_run_trace, isr_run_exec. destruct o as [d|p].
  - apply _stack_push_masked.
  - apply _stack_pop_masked.
Qed.

Lemma nano_task_stack_pop_wait_masked os : ∀ k,
  well_masked false (trace (nano_task_stack_pop_wait (isr_run <$> os)) k)
    = true ∧
  irq_locked (exec (nano_task_stack_pop_wait (isr_run <$> os)) k)
    = irq_locked k.
Proof.
  induction os as [|o os IH]; intros k;
    destruct (decide (next (chan k) > base (chan k))) as [Hgt|Hngt].
  - unfold trace, exec. by rewrite (nano_task_stack_pop_wait_found _ _ Hgt).
  - rewrite fmap_nil. unfold trace, exec.
    by rewrite (nano_task_stack_pop_wait_idle _ Hngt).
  - unfold trace, exec. by rewrite (nano_task_stack_pop_wait_found _ _ Hgt).
  - rewrite fmap_cons.
    rewrite (nano_task_stack_pop_wait_loop_trace _ _ _ Hngt).
    destruct (nano_task_stack_pop_wait_loop k (isr_run o) (isr_run <$> os))
      as [-> _]; [done|].
    destruct (isr_run_masked k o) as [Ht Hq].
    destruct (IH (exec (isr_run o) k)) as [Ht' Hq'].
    split; [|by rewrite Hq', Hq].
    cbn [app well_masked negb andb].
    by rewrite (well_masked_app _ _ _ Ht).
Qed.

(** X1: every routine that uses the stack keeps the masking discipline,
    whatever the state: [_stack_push], [nano_task_stack_push],
    [_stack_pop], [nano_fiber_stack_pop_wait] and the polling loop of
    [nano_task_stack_pop_wait] (the interrupt handlers that run while it
    idles being pushes and pops) touch the stack object, the slots and the
    scheduler only between a lock and the release that follows it; in
    particular the loop enters the idle state with the mask still held.
    Each leaves the interrupt state as it found it.  [nano_stack_init]
    alone writes the stack object without taking the lock. *)
Theorem routines_well_masked (k : kernel) (data pData : Z)
    (os : list isr_op) :
  well_masked false (trace (_stack_push data) k) = true ∧
  well_masked false (trace (nano_task_stack_push data) k) = true ∧
  well_masked false (trace (_stack_pop pData) k) = true ∧
  well_masked false (trace nano_fiber_stack_pop_wait k) = true ∧
  well_masked false
    (trace (nano_task_stack_pop_wait (isr_run <$> os)) k) = true ∧
  well_masked false (trace (nano_stack_init data) k) = false ∧
  never mask_op (trace (nano_stack_init data) k) = true ∧
  irq_locked (exec (_stack_push data) k) = irq_locked k ∧
  irq_locked (exec (nano_task_stack_push data) k) = irq_locked k ∧
  irq_locked (exec (_stack_pop pData) k) = irq_locked k ∧
  irq_locked (exec nano_fiber_stack_pop_wait k) = irq_locked k ∧
  irq_locked (exec (nano_task_stack_pop_wait (isr_run <$> os)) k)
    = irq_locked k ∧
  irq_locked (exec (nano_stack_init data) k) = irq_locked k.
Proof.
  destruct (_stack_push_masked k data) as [P1 P2].
  destruct (_stack_pop_masked k pData) as [Q1 Q2].
  destruct (nano_task_stack_pop_wait_masked os k) as [L1 L2].
  assert (T : well_masked false (trace (nano_task_stack_push data) k) = true ∧
              irq_locked (exec (nano_task_stack_push data) k) = irq_locked k).
  { unfold trace, exec. destruct (proc (chan k)) as [w|] eqn:Hp.
    - by rewrite (nano_task_stack_push_handoff _ _ _ Hp).
    - rewrite (nano_task_stack_push_store _ _ Hp). done. }
  assert (F : well_masked false (trace nano_fiber_stack_pop_wait k) = true ∧
              irq_locked (exec nano_fiber_stack_pop_wait k) = irq_locked k).
  { unfold trace, exec.
    destruct (decide (next (chan k) = base (chan k))) as [H|H].
    - by rewrite (nano_fiber_stack_pop_wait_pend _ H).
    - by rewrite (nano_fiber_stack_pop_wait_pop _ H). }
  destruct T as [T1 T2], F as [F1 F2].
  unfold trace, exec in *. rewrite nano_stack_init_eq.
  split_and!; done.
Qed.

(** ** The polling loop *)






Lemma never_app (p : event -> bool) (t1 t2 : list event) :
  never p (t1 ++ t2) = never p t1 && never p t2.
Proof. unfold never. induction t1 as [|e t1 IH]; [done|]. simpl. by rewrite IH, andb_assoc. Qed.

Lemma isr_run_quiet k o :
  let k' := exec (isr_run o) k in
  never registers (trace (isr_run o) k) = true ∧
  never yields (trace (isr_run o) k) = true ∧
  (proc (chan k') = proc (chan k) ∨ proc (chan k') = None) ∧
  base (chan k') = base (chan k) ∧ current k' = current k.
Proof.
  cbn zeta. rewrite isr_run_trace, isr_run_exec. unfold trace, exec.
  destruct o as [d|p].
  - destruct (proc (chan k)) as [w|] eqn:Hp.
    + rewrite (_stack_push_handoff _ _ _ Hp); simpl. split_and!; auto.
    + rewrite (_stack_push_store _ _ Hp); simpl. split_and!; auto.
  - destruct (decide (next (chan k) > base (chan k))) as [H|H].
    + rewrite (_stack_pop_found _ _ H); simpl. split_and!; auto.
    + rewrite (_stack_pop_empty _ _ H); simpl. split_and!; auto.
Qed.

(** X4: the polling loop of [nano_task_stack_pop_wait], the handlers that
    interrupt it being pushes and pops, never puts a context in the
    waiting-context field and never calls [_Swap]: the field afterwards
    holds what it held before or has been cleared by a handler's push; the
    buffer is not moved and the running context is the same. *)
Theorem nano_task_stack_pop_wait_never_registers (os : list isr_op) :
  ∀ k : kernel,
  let k' := exec (nano_task_stack_pop_wait (isr_run <$> os)) k in
  let t := trace (nano_task_stack_pop_wait (isr_run <$> os)) k in
  never registers t = true ∧
  never yields t = true ∧
  (proc (chan k') = proc (chan k) ∨ proc (chan k') = None) ∧
  base (chan k') = base (chan k) ∧ current k' = current k.
Proof.
  induction os as [|o os IH]; intros k; cbn zeta;
    destruct (decide (next (chan k) > base (chan k))) as [Hgt|Hngt].
  - unfold trace, exec. rewrite (nano_task_stack_pop_wait_found _ _ Hgt).
    simpl. split_and!; auto.
  - rewrite fmap_nil. unfold trace, exec.
    rewrite (nano_task_stack_pop_wait_idle _ Hngt). simpl. split_and!; auto.
  - unfold trace, exec. rewrite (nano_task_stack_pop_wait_found _ _ Hgt).
    simpl. split_and!; auto.
  - rewrite fmap_cons.
    rewrite (nano_task_stack_pop_wait_loop_trace _ _ _ Hngt).
    destruct (nano_task_stack_pop_wait_loop k (isr_run o) (isr_run <$> os))
      as [-> _]; [done|].
    destruct (isr_run_quiet k o) as (Q1 & Q2 & Q3 & Q4 & Q5).
    destruct (IH (exec (isr_run o) k)) as (I1 & I2 & I3 & I4 & I5).
    rewrite !never_app, Q1, Q2, I1, I2, I4, I5, Q4, Q5.
    split_and!; try done.
    destruct I3 as [I3|I3]; [rewrite I3; exact Q3|by right].
Qed.

(** ** The three pops *)

(** X5: on a stack with [base <= next] the three pops agree.  If
    [next == base], [_stack_pop] returns 0, the fiber pop-or-wait suspends
    and the task pop-or-wait idles; otherwise all three take the same
    value, the one in slot [next - 1], and leave the same stack object,
    and the two pop-or-waits do so by the same accesses, whatever
    interrupt handlers are pending. *)
Theorem pop_flavours_agree (k : kernel) (pData : Z) (irqs : list (M unit)) :
  base (chan k) <= next (chan k) ->
  if decide (next (chan k) = base (chan k)) then
    result (_stack_pop pData) k = 0 ∧
    result nano_fiber_stack_pop_wait k = Suspended to_uint32 ∧
    result (nano_task_stack_pop_wait []) k = None
  else
    let v := slot (mem k) (next (chan k) - 1) in
    result (_stack_pop pData) k = 1 ∧
    slot (mem (exec (_stack_pop pData) k)) pData = v ∧
    result nano_fiber_stack_pop_wait k = Returned v ∧
    result (nano_task_stack_pop_wait irqs) k = Some v ∧
    chan (exec nano_fiber_stack_pop_wait k) =
      chan (exec (_stack_pop pData) k) ∧
    exec (nano_task_stack_pop_wait irqs) k =
      exec nano_fiber_stack_pop_wait k ∧
    trace (nano_task_stack_pop_wait irqs) k =
      trace nano_fiber_stack_pop_wait k.
Proof.
  intros Hle. unfold result, exec, trace. case_decide as He.
  - rewrite _stack_pop_empty by lia.
    rewrite nano_fiber_stack_pop_wait_pend by done.
    rewrite nano_task_stack_pop_wait_idle by lia. done.
  - rewrite _stack_pop_found by lia.
    rewrite nano_fiber_stack_pop_wait_pop by done.
    rewrite nano_task_stack_pop_wait_found by lia. simpl.
    split_and!; try done. unfold slot at 1. by rewrite lookup_insert_eq.
Qed.

(** X6: the emptiness tests differ when [next] is below [base]:
    [_stack_pop] and the task pop-or-wait test [next > base] and find
    nothing, while the fiber pop-or-wait tests [next == base], so it does
    not wait but reads the slot below [next] and moves [next] further
    down. *)
Theorem pop_tests_differ_below_base (k : kernel) (pData : Z) :
  next (chan k) < base (chan k) ->
  result (_stack_pop pData) k = 0 ∧
  exec (_stack_pop pData) k = k ∧
  result (nano_task_stack_pop_wait []) k = None ∧
  exec (nano_task_stack_pop_wait []) k = k ∧
  result nano_fiber_stack_pop_wait k =
    Returned (slot (mem k) (next (chan k) - 1)) ∧
  next (chan (exec nano_fiber_stack_pop_wait k)) = next (chan k) - 1 ∧
  never yields (trace nano_fiber_stack_pop_wait k) = true.
Proof.
  intros Hlt. unfold result, exec, trace.
  rewrite _stack_pop_empty by lia.
  rewrite nano_task_stack_pop_wait_idle by lia.
  rewrite nano_fiber_stack_pop_wait_pop by lia. done.
Qed.

(** ** Push, then pop *)

(** X7: with no waiter registered and [base <= next], a push followed by
    any of the three pops gives the pushed value back and leaves the stack
    object as it was before the push; of the slots only the one [next]
    points to and, for [_stack_pop], the output slot have changed. *)
Theorem push_pop_roundtrip (k : kernel) (v pData : Z)
    (irqs : list (M unit)) :
  base (chan k) <= next (chan k) -> proc (chan k) = None ->
  let k1 := exec (_stack_push v) k in
  let kp := exec (_stack_pop pData) k1 in
  let kf := exec nano_fiber_stack_pop_wait k1 in
  let kt := exec (nano_task_stack_pop_wait irqs) k1 in
  result (_stack_pop pData) k1 = 1 ∧
  slot (mem kp) pData = v ∧
  chan kp = chan k ∧
  mem kp = <[pData := v]> (<[next (chan k) := v]> (mem k)) ∧
  result nano_fiber_stack_pop_wait k1 = Returned v ∧
  result (nano_task_stack_pop_wait irqs) k1 = Some v ∧
  chan kf = chan k ∧ chan kt = chan k ∧
  mem kf = <[next (chan k) := v]> (mem k) ∧
  mem kt = <[next (chan k) := v]> (mem k).
Proof.
  intros Hle Hp. cbn zeta.
  assert (H1 : next (chan (exec (_stack_push v) k)) = next (chan k) + 1 ∧
               base (chan (exec (_stack_push v) k)) = base (chan k) ∧
               proc (chan (exec (_stack_push v) k)) = None ∧
               mem (exec (_stack_push v) k) = <[next (chan k) := v]> (mem k))
    by (unfold exec; by rewrite (_stack_push_store _ _ Hp)).
  destruct H1 as (H1 & H2 & H3 & H4).
  assert (Hc : mk_nano_stack (next (chan k) + 1 - 1) (base (chan k)) None
               = chan k).
  { destruct (chan k) as [nx bs pr]; simpl in *. subst pr. f_equal. lia. }
  generalize dependent (exec (_stack_push v) k). intros k1 H1 H2 H3 H4.
  unfold result, exec.
  rewrite _stack_pop_found by lia.
  rewrite nano_fiber_stack_pop_wait_pop by lia.
  rewrite nano_task_stack_pop_wait_found by lia. simpl.
  rewrite H1, H2, H3, H4, Hc.
  replace (next (chan k) + 1 - 1) with (next (chan k)) by lia.
  unfold slot. rewrite !lookup_insert_eq. done.
Qed.

(** ** Pushes after a registration *)

Lemma lifo_calls_pushes (vs : list Z) : ∀ s,
  (lifo_calls (op_push <$> vs) s).2 = reverse vs ++ s.
Proof.
  induction vs as [|v vs IH]; intros s; [done|].
  rewrite fmap_cons. cbn [lifo_calls lifo_call].
  specialize (IH (v :: s)).
  destruct (lifo_calls (op_push <$> vs) (v :: s)) as [l s2]; simpl in *.
  rewrite IH, reverse_cons, <- app_assoc. done.
Qed.

Lemma out_slots_free_pushes (b : Z) (vs : list Z) : ∀ d,
  out_slots_free b d (op_push <$> vs).
Proof. induction vs as [|v vs IH]; intros d; [done|]. apply IH. Qed.

(** With no waiter registered, pushes and pops leave the scheduler and
    [base] alone. *)
Lemma calls_frame (os : list op) : ∀ k,
  proc (chan k) = None ->
  let k' := (calls os k).2 in
  rtn k' = rtn k ∧ fiber k' = fiber k ∧ base (chan k') = base (chan k).
Proof.
  induction os as [|o os IH]; intros k Hp; [done|].
  cbn [calls].
  assert (H1 : proc (chan (call o k).2) = None ∧
               rtn (call o k).2 = rtn k ∧ fiber (call o k).2 = fiber k ∧
               base (chan (call o k).2) = base (chan k)).
  { destruct o as [v|v|p]; cbn [call snd]; unfold exec.
    - by rewrite (_stack_push_store _ _ Hp).
    - rewrite (nano_task_stack_push_store _ _ Hp). unfold exec.
      by rewrite (_stack_push_store _ _ Hp).
    - destruct (decide (next (chan k) > base (chan k))) as [H|H].
      + by rewrite (_stack_pop_found _ _ H).
      + by rewrite (_stack_pop_empty _ _ H). }
  destruct H1 as (H1 & H2 & H3 & H4).
  specialize (IH _ H1). cbn zeta in IH.
  destruct (call o k) as [a k1]; cbn [snd] in *.
  destruct (calls os k1) as [l k2]; cbn [snd] in *.
  destruct IH as (I1 & I2 & I3). by rewrite I1, I2, I3.
Qed.

(** X8: when a fiber [w] waits on an empty stack and the values
    [v :: vs] are pushed one after the other, only [v] is handed to [w]
    ([w] is made ready once, its pending return value is [v]); the others
    are stored in the buffer, which ends holding [vs], last pushed on top,
    and the waiter field stays clear. *)
Theorem pushes_after_waiter (k : kernel) (w : tCCS) (v : Z) (vs : list Z) :
  empty k -> proc (chan k) = Some w ->
  let k' := (calls (op_push <$> v :: vs) k).2 in
  proc (chan k') = None ∧
  rtn k' = <[w := v]> (rtn k) ∧
  fiber k' = {[w]} ∪ fiber k ∧
  base (chan k') = base (chan k) ∧
  next (chan k') = base (chan k) + Z.of_nat (length vs) ∧
  contents (mem k') (base (chan k)) (length vs) = reverse vs.
Proof.
  unfold empty. intros He Hp. rewrite fmap_cons. cbn [calls call].
  assert (H1 : proc (chan (exec (_stack_push v) k)) = None ∧
               next (chan (exec (_stack_push v) k)) = base (chan k) ∧
               base (chan (exec (_stack_push v) k)) = base (chan k) ∧
               rtn (exec (_stack_push v) k) = <[w := v]> (rtn k) ∧
               fiber (exec (_stack_push v) k) = {[w]} ∪ fiber k)
    by (unfold exec; by rewrite (_stack_push_handoff _ _ _ Hp)).
  generalize dependent (exec (_stack_push v) k).
  intros k1 (H1 & H2 & H3 & H4 & H5).
  assert (Hbuf : buffered k1 0) by (split; [done|]; rewrite H2, H3; simpl; lia).
  pose proof (calls_refine (op_push <$> vs) k1 0%nat Hbuf
                (out_slots_free_pushes _ _ _)) as Hr.
  pose proof (calls_frame (op_push <$> vs) k1 H1) as Hf.
  cbn zeta in Hr, Hf. cbn [contents] in Hr.
  rewrite lifo_calls_pushes, app_nil_r, length_reverse in Hr.
  destruct (calls (op_push <$> vs) k1) as [l k2]; cbn [snd] in *.
  destruct Hr as (_ & [R1 R2] & R3). destruct Hf as (F1 & F2 & F3).
  rewrite F1, F2, F3, H3, H4, H5. rewrite F3, H3 in R2, R3. done.
Qed.

(** ** Initialization of a stack in use *)

(** X9: [nano_stack_init] on a stack in use forgets it without telling
    anybody: whatever was buffered and whoever was waiting, the slots, the
    ready set and the pending return values are not touched, nobody is
    woken, and the next push is stored in the first slot of the new buffer
    instead of being handed to the fiber that was waiting. *)
Theorem nano_stack_init_forgets (k : kernel) (data v pData : Z) :
  let k1 := exec (nano_stack_init data) k in
  let k2 := exec (_stack_push v) k1 in
  mem k1 = mem k ∧ rtn k1 = rtn k ∧ fiber k1 = fiber k ∧
  never wakes (trace (nano_stack_init data) k) = true ∧
  never wakes (trace (_stack_push v) k1) = true ∧
  rtn k2 = rtn k ∧ fiber k2 = fiber k ∧
  mem k2 = <[data := v]> (mem k) ∧
  next (chan k2) = data + 1 ∧ base (chan k2) = data ∧
  result (_stack_pop pData) k2 = 1 ∧
  slot (mem (exec (_stack_pop pData) k2)) pData = v.
Proof.
  cbn zeta. unfold exec at 1 2 3 5 7 9 11 13 15 17, trace at 1.
  rewrite nano_stack_init_eq. cbn [fst snd].
  unfold exec, trace, result.
  rewrite _stack_push_store by done. cbn [fst snd].
  rewrite _stack_pop_found by (simpl; lia). simpl.
  replace (data + 1 - 1) with data by lia.
  unfold slot. rewrite !lookup_insert_eq. done.
Qed.

(** ** While a fiber waits *)

(** X10: in every state reached from an initialized stack in which a fiber
    waits, there is nothing to pop: [_stack_pop] returns 0 and changes
    nothing, the task pop-or-wait idles, and a further fiber pop-or-wait
    suspends, always taking the waiter slot for the calling context. *)
Theorem pops_while_waiting (k : kernel) (w : tCCS) (pData : Z) :
  reachable k -> proc (chan k) = Some w ->
  empty k ∧
  result (_stack_pop pData) k = 0 ∧
  exec (_stack_pop pData) k = k ∧
  result (nano_task_stack_pop_wait []) k = None ∧
  exec (nano_task_stack_pop_wait []) k = k ∧
  result nano_fiber_stack_pop_wait k = Suspended to_uint32 ∧
  proc (chan (exec nano_fiber_stack_pop_wait k)) = Some (current k).
Proof.
  intros Hr Hp. destruct (waiter_inv_reachable k Hr) as [_ Hw].
  assert (He : empty k) by (apply Hw; by rewrite Hp).
  unfold empty in He. split; [done|]. unfold result, exec.
  rewrite _stack_pop_empty by lia.
  rewrite nano_task_stack_pop_wait_idle by lia.
  rewrite nano_fiber_stack_pop_wait_pend by done. done.
Qed.

(** ** Draining the buffer *)

(** X11: a fiber that calls pop-or-wait as many times as there are values
    in the buffer gets them all, newest first, without ever being
    suspended and without a slot being written; the buffer is then empty,
    and the call after that suspends the fiber. *)
Theorem nano_fiber_stack_pop_wait_drains (d : nat) : ∀ k : kernel,
  next (chan k) = base (chan k) + Z.of_nat d ->
  let k' := (pop_waits d k).2 in
  (pop_waits d k).1 = Returned <$> contents (mem k) (base (chan k)) d ∧
  empty k' ∧ mem k' = mem k ∧
  base (chan k') = base (chan k) ∧ proc (chan k') = proc (chan k) ∧
  result nano_fiber_stack_pop_wait k' = Suspended to_uint32.
Proof.
  induction d as [|d IH]; intros k Hn; cbn zeta.
  - cbn [pop_waits contents fst snd fmap list_fmap]. unfold empty, result.
    rewrite nano_fiber_stack_pop_wait_pend by lia. split_and!; try done. lia.
  - cbn [pop_waits contents].
    assert (H1 : result nano_fiber_stack_pop_wait k =
                   Returned (slot (mem k) (base (chan k) + Z.of_nat d)) ∧
                 next (chan (exec nano_fiber_stack_pop_wait k)) =
                   base (chan k) + Z.of_nat d ∧
                 base (chan (exec nano_fiber_stack_pop_wait k)) =
                   base (chan k) ∧
                 proc (chan (exec nano_fiber_stack_pop_wait k)) =
                   proc (chan k) ∧
                 mem (exec nano_fiber_stack_pop_wait k) = mem k).
    { unfold result, exec. rewrite nano_fiber_stack_pop_wait_pop by lia.
      simpl. split_and!; try done; [f_equal; f_equal|]; lia. }
    destruct H1 as (H1 & H2 & H3 & H4 & H5). rewrite H1.
    generalize dependent (exec nano_fiber_stack_pop_wait k).
    intros k1 H2 H3 H4 H5.
    destruct (IH k1) as (I1 & I2 & I3 & I4 & I5 & I6); [lia|].
    destruct (pop_waits d k1) as [l k2]; cbn [fst snd] in *.
    rewrite fmap_cons, I1, I3, I4, I5, H3, H4, H5. done.
Qed.

(** ** The further properties on the sample states *)

Lemma k_pending_reachable : reachable k_pending.
Proof.
  apply (reach_step (exec nano_fiber_stack_pop_wait k_fresh)).
  - apply (reach_step k_fresh); [apply reach_init|apply step_fiber_pop_wait].
  - apply step_env. reflexivity.
Qed.



(** On the stack holding 1, 2, 3 every pop takes 3. *)
Lemma pop_flavours_agree_witness :
  base (chan k_three) <= next (chan k_three) ∧
  result (_stack_pop 50) k_three = 1 ∧
  result nano_fiber_stack_pop_wait k_three = Returned 3 ∧
  result (nano_task_stack_pop_wait []) k_three = Some 3.
Proof.
  assert (H : base (chan k_three) <= next (chan k_three)) by discriminate.
  pose proof (pop_flavours_agree k_three 50 [] H) as P.
  destruct (decide (next (chan k_three) = base (chan k_three))) as [He|_];
    [discriminate He|].
  destruct P as (P1 & _ & P3 & P4 & _).
  split; [exact H|]. split; [exact P1|]. split; [exact P3|exact P4].
Defined.

(** With [next] at slot 3 and [base] at slot 7 the fiber pop-or-wait reads
    slot 2. *)
Lemma pop_tests_differ_below_base_witness :
  next (chan k_below) < base (chan k_below) ∧
  result (_stack_pop 50) k_below = 0 ∧
  result nano_fiber_stack_pop_wait k_below = Returned (slot (mem k_below) 2) ∧
  next (chan (exec nano_fiber_stack_pop_wait k_below)) = 2.
Proof.
  assert (H : next (chan k_below) < base (chan k_below)) by reflexivity.
  destruct (pop_tests_differ_below_base k_below 50 H)
    as (P1 & _ & _ & _ & P5 & P6 & _).
  split; [exact H|]. split; [exact P1|]. split; [exact P5|exact P6].
Defined.

(** Push 7 on the fresh stack, then pop. *)
Lemma push_pop_roundtrip_witness :
  base (chan k_fresh) <= next (chan k_fresh) ∧ proc (chan k_fresh) = None ∧
  result (_stack_pop 50) (exec (_stack_push 7) k_fresh) = 1 ∧
  slot (mem (exec (_stack_pop 50) (exec (_stack_push 7) k_fresh))) 50 = 7 ∧
  chan (exec (_stack_pop 50) (exec (_stack_push 7) k_fresh)) = chan k_fresh ∧
  result nano_fiber_stack_pop_wait (exec (_stack_push 7) k_fresh)
    = Returned 7.
Proof.
  assert (H1 : base (chan k_fresh) <= next (chan k_fresh)) by discriminate.
  assert (H2 : proc (chan k_fresh) = None) by reflexivity.
  destruct (push_pop_roundtrip k_fresh 7 50 [] H1 H2)
    as (P1 & P2 & P3 & _ & P5 & _).
  split; [exact H1|]. split; [exact H2|]. split; [exact P1|].
  split; [exact P2|]. split; [exact P3|exact P5].
Defined.

(** Fiber 1 pends; 7, 8 and 9 are pushed: fiber 1 gets 7, the buffer holds
    8 and 9. *)
Lemma pushes_after_waiter_witness :
  empty k_pending ∧ proc (chan k_pending) = Some 1%positive ∧
  rtn (calls (op_push <$> [7; 8; 9]) k_pending).2 !! 1%positive = Some 7 ∧
  next (chan (calls (op_push <$> [7; 8; 9]) k_pending).2) = 102 ∧
  contents (mem (calls (op_push <$> [7; 8; 9]) k_pending).2) 100 2 = [9; 8].
Proof.
  assert (H1 : empty k_pending) by reflexivity.
  assert (H2 : proc (chan k_pending) = Some 1%positive) by reflexivity.
  destruct (pushes_after_waiter k_pending 1%positive 7 [8; 9] H1 H2)
    as (_ & P2 & _ & _ & P5 & P6).
  split; [exact H1|]. split; [exact H2|].
  split; [rewrite P2; reflexivity|]. split; [exact P5|exact P6].
Defined.

(** While fiber 1 pends, task 2 finds nothing to pop. *)
Lemma pops_while_waiting_witness :
  reachable k_pending ∧ proc (chan k_pending) = Some 1%positive ∧
  result (_stack_pop 50) k_pending = 0 ∧
  result (nano_task_stack_pop_wait []) k_pending = None ∧
  proc (chan (exec nano_fiber_stack_pop_wait k_pending)) = Some 2%positive.
Proof.
  assert (H2 : proc (chan k_pending) = Some 1%positive) by reflexivity.
  destruct (pops_while_waiting k_pending 1%positive 50 k_pending_reachable H2)
    as (_ & P2 & _ & P4 & _ & _ & P7).
  split; [exact k_pending_reachable|]. split; [exact H2|].
  split; [exact P2|]. split; [exact P4|exact P7].
Defined.

(** Three pop-or-waits on the stack holding 1, 2, 3. *)
Lemma nano_fiber_stack_pop_wait_drains_witness :
  next (chan k_three) = base (chan k_three) + Z.of_nat 3 ∧
  (pop_waits 3 k_three).1 = [Returned 3; Returned 2; Returned 1] ∧
  empty (pop_waits 3 k_three).2.
Proof.
  assert (H : next (chan k_three) = base (chan k_three) + Z.of_nat 3)
    by reflexivity.
  destruct (nano_fiber_stack_pop_wait_drains 3 k_three H) as (P1 & P2 & _).
  split; [exact H|]. split; [exact P1|exact P2].
Defined.
